(** * tjcain/limit: a distributed leaky-bucket rate limiter for HTTP requests

    Shallow embedding of [limit.go] (package [limit]: the rate-limit
    headers and the [Transport] round tripper) and of [redis/redis.go]
    (package [redis]: the [Bucket] backed by a shared key-value store),
    followed by the properties of the specification checked against them.

    Conventions.
    - Go's [int], [int64] and [time.Duration] are [Z]; where the program's
      own arithmetic can leave the 64-bit range (the cached space, the
      time to live turned into a duration) it carries its wrap-around
      ([wrap64]).
    - [time.Time] is a [Z]: nanoseconds since the epoch.
    - A Go [error] value is an [option error]: [None] is [nil].
    - Pointers that the code mutates ([*Bucket], [*http.Response]) are
      passed and returned explicitly; the Redis server is a component of
      the [World] that every store command reads and updates. *)

From Stdlib Require Import ZArith List Lia Bool Sorted.
From stdpp Require Import base option gmap strings pretty.

Open Scope Z_scope.

(** ** Go values shared by both packages *)

Definition Time := Z.
Definition Duration := Z.

Definition Nanosecond : Duration := 1.
Definition Millisecond : Duration := 1000000.
Definition Second : Duration := 1000000000.

Definition min_int64 : Z := - 2 ^ 63.
Definition max_int64 : Z := 2 ^ 63 - 1.

(** Two's complement reduction of a mathematical integer to [int64]. *)
Definition wrap64 (z : Z) : Z := (z + 2 ^ 63) mod 2 ^ 64 - 2 ^ 63.

(** [strconv.Itoa]: decimal rendering, with a leading minus sign. *)
Definition Itoa (z : Z) : string := pretty z.

(** Go error values.  [ErrToManyRequests] (limit.go:20) and [RedisNil]
    (go-redis's [redis.Nil]) are the two sentinels the code compares
    against; [ErrNew] is any value made by [errors.New]; [ErrWrap] is an
    error whose [Unwrap] method returns [inner]. *)
Inductive error : Type :=
| ErrToManyRequests
| RedisNil
| ErrNew (msg : string)
| ErrWrap (msg : string) (inner : error).

Fixpoint error_eqb (a b : error) : bool :=
  match a, b with
  | ErrToManyRequests, ErrToManyRequests => true
  | RedisNil, RedisNil => true
  | ErrNew m, ErrNew m' => bool_decide (m = m')
  | ErrWrap m i, ErrWrap m' i' => bool_decide (m = m') && error_eqb i i'
  | _, _ => false
  end.

(** [errors.Is err target]: [err] or an error in its [Unwrap] chain is
    [target]. *)
Fixpoint errors_Is (err target : error) : bool :=
  error_eqb err target ||
  match err with
  | ErrWrap _ inner => errors_Is inner target
  | _ => false
  end.

(** An error wrapped once per message, outermost message first, as by
    nested [fmt.Errorf("...: %w", err)]. *)
Definition wrap_all (msgs : list string) (e : error) : error :=
  foldr ErrWrap e msgs.

(** ** Package limit (limit.go) *)

Module limit.

(** limit.go:13-17.  The third constant repeats the first one's value. *)
Definition xRateLimit : string := "X-Rate-Limit-Limit".
Definition xRateLimitRemaining : string := "X-Rate-Limit-Remaining".
Definition xRateLimitRest : string := "X-Rate-Limit-Limit".

(** limit.go:35-39 *)
Record State : Type := mkState {
  Capacity : Z;
  Space : Z;
  Reset : Time
}.

(** [http.Header] is [map[string][]string].  [Header.Set] replaces the
    values of a key by the single given one; the three keys used here are
    already in canonical MIME form, so canonicalisation is the identity. *)
Definition Header_Set (h : gmap string (list string)) (k v : string)
  : gmap string (list string) := <[k := [v]]> h.

Definition Header_Get (h : gmap string (list string)) (k : string)
  : option string := h !! k ≫= head.

Record Request : Type := mkRequest {
  Method : string;
  URL : string
}.

(** The fields of [http.Response] that the package touches; a [nil]
    [Body] is [None]. *)
Record Response : Type := mkResponse {
  Status : string;
  StatusCode : Z;
  Header : gmap string (list string);
  Body : option string
}.

Definition with_Header (r : Response) (h : gmap string (list string)) : Response :=
  {| Status := Status r; StatusCode := StatusCode r; Header := h; Body := Body r |}.

(** [Time.Sub] followed by [Duration.Seconds] and the conversion to
    [int]: the whole seconds of [t - u], truncated toward zero.  (The
    float64 detour of [Seconds] is exact for every duration shorter than
    2^23 seconds.) *)
Definition Sub (t u : Time) : Duration := t - u.
Definition Seconds_int (d : Duration) : Z := Z.quot d Second.

(** limit.go:41-46; [now] is the reading of [time.Now()]. *)
Definition setXRateHeaders (s : State) (now : Time) (r : Response) : Response :=
  let h := Header_Set (Header r) xRateLimit (Itoa (Capacity s)) in
  let h := Header_Set h xRateLimitRemaining (Itoa (Space s)) in
  let remaining := Seconds_int (Sub now (Reset s)) in
  let h := Header_Set h xRateLimitRest (Itoa remaining) in
  with_Header r h.

Section RoundTripper.

(** [W] is everything outside the [Transport] that its collaborators
    read or change: the store behind the bucket, the network behind the
    downstream transport, the clock. *)
Context {W : Type}.

(** [time.Now()] *)
Variable Now : W -> Time.

(** [http.RoundTripper].  Its contract in net/http: a response with a
    nil error, or no response with a non-nil error; hence a sum. *)
Definition RoundTripper : Type :=
  Request -> W -> (Response + error) * W.

(** The [Bucket] interface, limit.go:25-32: [Consume(int) (State, error)] *)
Definition Bucket : Type := Z -> W -> (State * option error) * W.

(** [http.DefaultTransport] *)
Variable DefaultTransport : RoundTripper.

(** limit.go:51-54; a [nil] [Transport] field is [None]. *)
Record Transport : Type := mkTransport {
  transport : option RoundTripper;
  bucket : Bucket
}.

(** limit.go:58-60 *)
Definition NewTransport (b : Bucket) : Transport :=
  {| transport := None; bucket := b |}.

(** limit.go:71-102 *)
Definition RoundTrip (t : Transport) (req : Request) (w : W)
  : (option Response * option error) * W :=
  let transport :=
    match transport t with
    | None => DefaultTransport
    | Some rt => rt
    end in
  let '((state, err), w) := bucket t 1 w in
  match err with
  | Some e =>
      if errors_Is e ErrToManyRequests then
        let resp := {| Status := "Too Many Requests"; StatusCode := 429;
                       Header := ∅; Body := None |} in
        ((Some (setXRateHeaders state (Now w) resp), None), w)
      else ((None, Some e), w)
  | None =>
      let '(r, w) := transport req w in
      match r with
      | inr e => ((None, Some e), w)
      | inl resp => ((Some (setXRateHeaders state (Now w) resp), None), w)
      end
  end.

End RoundTripper.

End limit.

(** ** Package redis (redis/redis.go) *)

Module redis.

(** *** The shared store *)

(** Modelled from the spec: the Store capability of section 4.1.  The
    go-redis client and the Redis server are outside this repository;
    what follows is the part of their behaviour that redis.go relies on.
    A key holds an integer and, optionally, the server time in
    milliseconds at which it expires.  [faults] is the schedule of
    answers of the store to the commands still to come: [None] lets a
    command through, [Some e] makes it fail with [e] and without effect,
    and an exhausted schedule lets every command through. *)
Record World : Type := mkWorld {
  kv : gmap string (Z * option Z);
  clock : Time;
  faults : list (option error)
}.

Definition set_kv (w : World) (m : gmap string (Z * option Z)) : World :=
  {| kv := m; clock := clock w; faults := faults w |}.
Definition set_clock (w : World) (t : Time) : World :=
  {| kv := kv w; clock := t; faults := faults w |}.
Definition set_faults (w : World) (fs : list (option error)) : World :=
  {| kv := kv w; clock := clock w; faults := fs |}.

(** Code that talks to the store: a state monad over the [World]. *)
Definition M (A : Type) : Type := World -> A * World.
Definition ret {A : Type} (a : A) : M A := fun w => (a, w).
Definition bind {A B : Type} (m : M A) (k : A -> M B) : M B :=
  fun w => let '(a, w') := m w in k a w'.

Notation "'let*' x := m 'in' k" := (bind m (fun x => k))
  (at level 10, x name, m at level 100, k at level 200, only parsing).
Notation "'let*' ' p := m 'in' k" := (bind m (fun x => match x with p => k end))
  (at level 10, p pattern, m at level 100, k at level 200, only parsing).

(** [time.Now()] *)
Definition Now : M Time := fun w => (clock w, w).

(** The server's clock, in milliseconds. *)
Definition mstime (w : World) : Z := clock w `div` Millisecond.

(** The entry of a key, unless its expiry time has been reached. *)
Definition live (w : World) (k : string) : option (Z * option Z) :=
  match kv w !! k with
  | Some (v, Some deadline) =>
      if bool_decide (deadline <= mstime w) then None else Some (v, Some deadline)
  | e => e
  end.

(** The next answer of the fault schedule. *)
Definition reply : M (option error) := fun w =>
  match faults w with
  | [] => (None, w)
  | f :: fs => (f, set_faults w fs)
  end.

(** The milliseconds go-redis sends with [Set]: none for a non-positive
    duration (the key then never expires), at least one otherwise. *)
Definition ttl_ms (d : Duration) : option Z :=
  if bool_decide (d <= 0) then None
  else if bool_decide (d < Millisecond) then Some 1
  else Some (d `div` Millisecond).

(** [Ping().Result()] *)
Definition Ping : M (option error) := reply.

(** [Get(key).Int()]: the value and a nil error, or 0 and [redis.Nil] for
    a key that is absent. *)
Definition Get (k : string) : M (Z * option error) :=
  let* f := reply in
  match f with
  | Some e => ret (0, Some e)
  | None => fun w =>
      match live w k with
      | Some (v, _) => ((v, None), w)
      | None => ((0, Some RedisNil), w)
      end
  end.

(** [Set(key, value, expiration)] *)
Definition Set_ (k : string) (v : Z) (d : Duration) : M (option error) :=
  let* f := reply in
  match f with
  | Some e => ret (Some e)
  | None => fun w =>
      (None, set_kv w (<[k := (v, (fun ms => mstime w + ms) <$> ttl_ms d)]> (kv w)))
  end.

(** [IncrBy(key, amount).Result()]: an absent key counts as 0 and gets no
    expiry, a present one keeps its expiry; the server refuses a result
    outside int64. *)
Definition IncrBy (k : string) (amt : Z) : M (Z * option error) :=
  let* f := reply in
  match f with
  | Some e => ret (0, Some e)
  | None => fun w =>
      let '(v, deadline) := default (0, None) (live w k) in
      if bool_decide (min_int64 <= v + amt <= max_int64) then
        ((v + amt, None), set_kv w (<[k := (v + amt, deadline)]> (kv w)))
      else ((0, Some (ErrNew "ERR increment or decrement would overflow")), w)
  end.

(** [Do("PTTL", key).Int()]: -2 for an absent key, -1 for a key without
    expiry, the remaining milliseconds otherwise. *)
Definition PTTL (k : string) : M (Z * option error) :=
  let* f := reply in
  match f with
  | Some e => ret (0, Some e)
  | None => fun w =>
      match live w k with
      | None => ((-2, None), w)
      | Some (_, None) => ((-1, None), w)
      | Some (_, Some deadline) => ((deadline - mstime w, None), w)
      end
  end.

(** [Watch(fn, key)]: the WATCH command, then [fn]; [r] is what the
    caller is left with when WATCH itself fails. *)
Definition Watch {A : Type} (r : A) (fn : M (option error * A)) : M (option error * A) :=
  let* f := reply in
  match f with
  | Some e => ret (Some e, r)
  | None => fn
  end.

(** *** The bucket *)

(** redis.go:14-28.  The [rdb] client is the [World]; the mutex guards
    [space] and [reset] against other goroutines and has no sequential
    content. *)
Record Bucket : Type := mkBucket {
  key : string;
  capacity : Z;
  space : Z;
  reset : Time;
  rate : Duration
}.

Definition set_space (b : Bucket) (s : Z) : Bucket :=
  {| key := key b; capacity := capacity b; space := s; reset := reset b; rate := rate b |}.
Definition set_reset (b : Bucket) (t : Time) : Bucket :=
  {| key := key b; capacity := capacity b; space := space b; reset := t; rate := rate b |}.

(** redis.go:96-102 *)
Definition state (b : Bucket) : limit.State :=
  {| limit.Capacity := capacity b; limit.Space := space b; limit.Reset := reset b |}.

Definition is_Nil (err : option error) : bool :=
  match err with
  | Some e => error_eqb e RedisNil
  | None => false
  end.

Definition nonnil (err : option error) : bool :=
  match err with
  | Some _ => true
  | None => false
  end.

(** redis.go:73-94 *)
Definition drain (b : Bucket) : M (option error * Bucket) :=
  Watch b (
    let* '(pttl, err) := PTTL (key b) in
    if nonnil err && negb (is_Nil err) then ret (err, b)
    else
      let* serr := (if bool_decide (pttl < 1) || is_Nil err
                    then Set_ (key b) 0 (rate b)
                    else ret None) in
      if nonnil serr then ret (serr, b)
      else
        let* now := Now in
        ret (None, set_reset b (now + wrap64 (pttl * Millisecond)))).

(** redis.go:31-71.  The closure handed to [TxPipelined] ignores its
    pipeliner and calls [tx.IncrBy] itself, so the increment is an
    ordinary command whose reply is [count]; its error is assigned and
    never read, and a failed increment leaves [count] at 0. *)
Definition Consume (b : Bucket) (amt : Z) : M ((limit.State * option error) * Bucket) :=
  let* '(err, b) := Watch b (
    let* '(n, err) := Get (key b) in
    let* ignored := (if is_Nil err then Set_ (key b) 0 (rate b) else ret None) in
    if nonnil err && negb (is_Nil err) then ret (err, b)
    else if bool_decide (n >= capacity b) then
      let* '(_, b) := drain b in
      ret (Some ErrToManyRequests, b)
    else
      let* '(count, _) := IncrBy (key b) amt in
      if bool_decide (count > capacity b) then
        let* '(_, b) := drain b in
        ret (Some ErrToManyRequests, b)
      else
        let b := set_space b (wrap64 (capacity b - count)) in
        let* '(_, b) := drain b in
        ret (None, b)) in
  ret ((state b, err), b).

(** [Consume] with its three calls of [drain] replaced by calls of an
    arbitrary procedure [d]: a way of asking what in [Consume] depends on
    the drain.  [Consume] itself is [Consume_draining drain]. *)
Definition Consume_draining (d : Bucket -> M (option error * Bucket))
    (b : Bucket) (amt : Z) : M ((limit.State * option error) * Bucket) :=
  let* '(err, b) := Watch b (
    let* '(n, err) := Get (key b) in
    let* ignored := (if is_Nil err then Set_ (key b) 0 (rate b) else ret None) in
    if nonnil err && negb (is_Nil err) then ret (err, b)
    else if bool_decide (n >= capacity b) then
      let* '(_, b) := d b in
      ret (Some ErrToManyRequests, b)
    else
      let* '(count, _) := IncrBy (key b) amt in
      if bool_decide (count > capacity b) then
        let* '(_, b) := d b in
        ret (Some ErrToManyRequests, b)
      else
        let b := set_space b (wrap64 (capacity b - count)) in
        let* '(_, b) := d b in
        ret (None, b)) in
  ret ((state b, err), b).

(** redis.go:130-141 *)
Record Config : Type := mkConfig {
  AppKey : string;
  RedisAddr : string;
  RedisPwd : string;
  RedisDB : Z;
  RequestLimit : Z;
  LimitDuration : Duration
}.

(** The zero [time.Time] (January 1 of year 1, UTC) on the nanosecond
    scale of [Time]. *)
Definition zeroTime : Time := -62135596800 * Second.

(** [&Bucket{}] *)
Definition emptyBucket : Bucket :=
  {| key := ""; capacity := 0; space := 0; reset := zeroTime; rate := 0 |}.

(** redis.go:104-126 *)
Definition NewBucket (cfg : Config) : M (Bucket * option error) :=
  let* err := Ping in
  if nonnil err then ret (emptyBucket, err)
  else if bool_decide (AppKey cfg = "") then
    ret (emptyBucket, Some (ErrNew "please provide appkey"))
  else
    ret ({| key := AppKey cfg; capacity := RequestLimit cfg; space := 0;
            reset := zeroTime; rate := LimitDuration cfg |}, None).

(** *** The bucket as a [limit.Bucket] *)

(** A [*Bucket] behind the interface of limit.go: the world of the
    transport is the bucket object together with the store. *)
Definition as_limit_Bucket : @limit.Bucket (Bucket * World) :=
  fun amt '(b, w) =>
    let '((r, b), w) := Consume b amt w in (r, (b, w)).

Definition Now_of (bw : Bucket * World) : Time := clock (snd bw).

(** *** Auxiliary notions used by the properties *)

(** The read, compare and increment steps of [Consume] (redis.go:34-56)
    on their own, every call of [drain] left out: what the transaction
    decides, and the world in which the drain would start. *)
Inductive Verdict : Type :=
| StoreError (e : error)
| Full (n : Z)
| Overflow (count : Z)
| Accepted (count : Z).

Definition consume_steps (b : Bucket) (amt : Z) : M Verdict :=
  let* f := reply in
  match f with
  | Some e => ret (StoreError e)
  | None =>
      let* '(n, err) := Get (key b) in
      let* ignored := (if is_Nil err then Set_ (key b) 0 (rate b) else ret None) in
      match (if nonnil err && negb (is_Nil err) then err else None) with
      | Some e => ret (StoreError e)
      | None =>
          if bool_decide (n >= capacity b) then ret (Full n)
          else
            let* '(count, _) := IncrBy (key b) amt in
            ret (if bool_decide (count > capacity b)
                 then Overflow count else Accepted count)
      end
  end.

Definition verdict_error (v : Verdict) : option error :=
  match v with
  | StoreError e => Some e
  | Full _ | Overflow _ => Some ErrToManyRequests
  | Accepted _ => None
  end.

(** A sequence of [Consume(1)] calls, each by some caller's bucket object
    at some reading of the clock, one whole transaction after the other. *)
Fixpoint consume_all (calls : list (Bucket * Time)) (w : World)
  : list (limit.State * option error) * World :=
  match calls with
  | [] => ([], w)
  | (b, t) :: rest =>
      let '((r, _), w) := Consume b 1 (set_clock w t) in
      let '(rs, w) := consume_all rest w in
      (r :: rs, w)
  end.

(** The same bucket object used for a sequence of [Consume(amt)] calls,
    each at its own reading of the clock. *)
Fixpoint consume_seq (b : Bucket) (calls : list (Z * Time)) (w : World)
  : list (limit.State * option error) * (Bucket * World) :=
  match calls with
  | [] => ([], (b, w))
  | (amt, t) :: rest =>
      let '((r, b), w) := Consume b amt (set_clock w t) in
      let '(rs, bw) := consume_seq b rest w in
      (r :: rs, bw)
  end.

Definition succeeded (r : limit.State * option error) : bool := negb (nonnil (snd r)).

(** The units granted by a sequence of calls: the sum of the amounts of
    the calls that returned a nil error. *)
Fixpoint accepted_total (amounts : list Z) (rs : list (limit.State * option error)) : Z :=
  match amounts, rs with
  | amt :: amounts, r :: rs =>
      (if succeeded r then amt else 0) + accepted_total amounts rs
  | _, _ => 0
  end.

(** A call of the quota scope [k] with capacity [C] that reaches the
    store before the deadline [d], in server milliseconds, of the
    scope's counter. *)
Definition in_window (k : string) (C : Z) (d : Z) (c : Bucket * Time) : Prop :=
  key c.1 = k ∧ capacity c.1 = C ∧ c.2 `div` Millisecond < d.

End redis.

(** ** Concrete inputs used by the examples below *)

Module examples.

(** The synthesized rejection, before the headers are stamped
    (limit.go:80-85). *)
Definition rejection : limit.Response :=
  {| limit.Status := "Too Many Requests"; limit.StatusCode := 429;
     limit.Header := ∅; limit.Body := None |}.

Definition ok200 : limit.Response :=
  {| limit.Status := "200 OK"; limit.StatusCode := 200;
     limit.Header := {[ "Content-Type" := ["text/plain"] ]}; limit.Body := Some "OK" |}.

Definition get_root : limit.Request :=
  {| limit.Method := "GET"; limit.URL := "http://127.0.0.1/" |}.

(** A world that only counts the calls of the downstream transport and
    reads the clock as 0. *)
Definition counting_transport : @limit.RoundTripper nat :=
  fun _ calls => (inl ok200, S calls).
Definition failing_transport : @limit.RoundTripper nat :=
  fun _ calls => (inr (ErrNew "dial tcp: connection refused"), S calls).
Definition clock0 : nat -> Time := fun _ => 0.

(** Buckets with a fixed answer. *)
Definition bucket_answering (st : limit.State) (err : option error) : @limit.Bucket nat :=
  fun _ calls => ((st, err), calls).

Definition exhausted : limit.State :=
  {| limit.Capacity := 2; limit.Space := 0; limit.Reset := 1 * Second |}.
Definition half_used : limit.State :=
  {| limit.Capacity := 2; limit.Space := 1; limit.Reset := 5 * Second |}.

Definition store_down : error := ErrNew "dial tcp 127.0.0.1:6379: connect: connection refused".

(** The configuration of redis_test.go:17-22 and a store without the
    key, without faults, at time 0. *)
Definition defaultTestCfg : redis.Config :=
  {| redis.AppKey := "test-app-key"; redis.RedisAddr := "localhost:6379";
     redis.RedisPwd := ""; redis.RedisDB := 0;
     redis.RequestLimit := 2; redis.LimitDuration := Second |}.

Definition fresh : redis.World :=
  {| redis.kv := ∅; redis.clock := 0; redis.faults := [] |}.

Definition testBucket : redis.Bucket :=
  {| redis.key := "test-app-key"; redis.capacity := 2; redis.space := 0;
     redis.reset := redis.zeroTime; redis.rate := Second |}.

(** A key that is accepted, with a zero capacity and a zero window. *)
Definition zeroCfg : redis.Config :=
  {| redis.AppKey := "test-app-key"; redis.RedisAddr := "localhost:6379";
     redis.RedisPwd := ""; redis.RedisDB := 0;
     redis.RequestLimit := 0; redis.LimitDuration := 0 |}.

Definition bucket5 : redis.Bucket :=
  {| redis.key := "test-app-key"; redis.capacity := 5; redis.space := 0;
     redis.reset := redis.zeroTime; redis.rate := Second |}.

(** The bucket of capacity 5 and the store after one [Consume(3)]. *)
Definition after_three : redis.Bucket * redis.World :=
  snd (redis.consume_seq bucket5 [(3, 0)] fresh).

(** A store that lets four commands through and fails the fifth. *)
Definition fails_fifth : redis.World :=
  {| redis.kv := ∅; redis.clock := 0;
     redis.faults := [None; None; None; None; Some store_down] |}.

Definition store_is_down : redis.World :=
  {| redis.kv := ∅; redis.clock := 0; redis.faults := [Some store_down] |}.

(** The server of redis_test.go:57-60 as a downstream transport over the
    world of a redis bucket: it answers 200 and touches nothing. *)
Definition test_server : @limit.RoundTripper (redis.Bucket * redis.World) :=
  fun _ bw => (inl ok200, bw).

(** [n] requests, one after the other, through the same transport; the
    status code of each response. *)
Fixpoint status_codes (t : @limit.Transport (redis.Bucket * redis.World)) (n : nat)
    (bw : redis.Bucket * redis.World) : list (option Z) :=
  match n with
  | O => []
  | S n =>
      let '((resp, _), bw) := limit.RoundTrip redis.Now_of test_server t get_root bw in
      (limit.StatusCode <$> resp) :: status_codes t n bw
  end.

(** A bucket with a key, capacity 1 and a window of 0. *)
Definition no_window : redis.Bucket :=
  {| redis.key := "test-app-key"; redis.capacity := 1; redis.space := 0;
     redis.reset := redis.zeroTime; redis.rate := 0 |}.

(** A response that already carries a remaining-space header of its own. *)
Definition ok200_with_remaining : limit.Response :=
  {| limit.Status := "200 OK"; limit.StatusCode := 200;
     limit.Header := {[ "X-Rate-Limit-Remaining" := ["999"];
                        "Content-Type" := ["text/plain"] ]};
     limit.Body := Some "OK" |}.

Definition upstream_transport : @limit.RoundTripper nat :=
  fun _ calls => (inl ok200_with_remaining, S calls).

(** A store with the test key at 1, alive until millisecond 1000, and a
    second key that belongs to another scope. *)
Definition two_scopes : gmap string (Z * option Z) :=
  {[ "test-app-key" := (1, Some 1000); "other-app" := (7, Some 5000) ]}.

End examples.

(** * Properties *)

(** ** The rate-limit headers *)

Lemma Header_Get_Set_eq h k v : limit.Header_Get (limit.Header_Set h k v) k = Some v.
Proof. unfold limit.Header_Get, limit.Header_Set. by rewrite lookup_insert_eq. Qed.

Lemma Header_Get_Set_ne h k k' v :
  k ≠ k' → limit.Header_Get (limit.Header_Set h k v) k' = limit.Header_Get h k'.
Proof. intros. unfold limit.Header_Get, limit.Header_Set. by rewrite lookup_insert_ne. Qed.

Lemma xRateLimitRemaining_ne : limit.xRateLimitRemaining ≠ limit.xRateLimit.
Proof. discriminate. Qed.

(** What a stamped response carries under the name of the remaining
    space: the [Space] of the state. *)
Lemma stamped_remaining s now r :
  limit.Header_Get (limit.Header (limit.setXRateHeaders s now r)) limit.xRateLimitRemaining
  = Some (Itoa (limit.Space s)).
Proof.
  unfold limit.setXRateHeaders; cbn [limit.Header limit.with_Header].
  rewrite Header_Get_Set_ne by (symmetry; apply xRateLimitRemaining_ne).
  apply Header_Get_Set_eq.
Qed.

(** What a stamped response carries under the name of the reset time: the
    whole seconds elapsed since [Reset]. *)
Lemma stamped_reset s now r :
  limit.Header_Get (limit.Header (limit.setXRateHeaders s now r)) limit.xRateLimitRest
  = Some (Itoa (limit.Seconds_int (now - limit.Reset s))).
Proof.
  unfold limit.setXRateHeaders; cbn [limit.Header limit.with_Header].
  apply Header_Get_Set_eq.
Qed.

(** The stamping leaves status, code and body alone. *)
Lemma stamped_rest s now r :
  limit.StatusCode (limit.setXRateHeaders s now r) = limit.StatusCode r ∧
  limit.Status (limit.setXRateHeaders s now r) = limit.Status r ∧
  limit.Body (limit.setXRateHeaders s now r) = limit.Body r.
Proof. done. Qed.

(** The headers of a synthesized rejection: two entries. *)
Lemma stamped_rejection_headers s now :
  limit.Header (limit.setXRateHeaders s now examples.rejection)
  = {[ limit.xRateLimit := [Itoa (limit.Seconds_int (now - limit.Reset s))];
       limit.xRateLimitRemaining := [Itoa (limit.Space s)] ]}.
Proof.
  unfold limit.setXRateHeaders, limit.Header_Set, limit.Sub; cbn [limit.Header limit.with_Header examples.rejection].
  apply map_eq; intros k. unfold limit.xRateLimitRest.
  rewrite !lookup_insert, lookup_singleton, lookup_empty.
  repeat case_decide;
    unfold limit.xRateLimit, limit.xRateLimitRemaining in *; congruence.
Qed.

(** ** The transport *)

Section TransportProperties.

Context {W : Type}.
Variable Now : W -> Time.
Variable DefaultTransport : @limit.RoundTripper W.

(** The rejection path of [RoundTrip] (limit.go:78-87): the response is
    the stamped rejection, the error is nil, and the world is the one
    [Consume] left. *)
Lemma RoundTrip_rejection (t : limit.Transport) req w st e w' :
  limit.bucket t 1 w = ((st, Some e), w') →
  errors_Is e ErrToManyRequests = true →
  limit.RoundTrip Now DefaultTransport t req w
  = ((Some (limit.setXRateHeaders st (Now w') examples.rejection), None), w').
Proof.
  intros Hb He. unfold limit.RoundTrip. rewrite Hb. by rewrite He.
Qed.

(** The accepting path (limit.go:93-101). *)
Lemma RoundTrip_accepted (t : limit.Transport) req w st w' :
  limit.bucket t 1 w = ((st, None), w') →
  limit.RoundTrip Now DefaultTransport t req w
  = match default DefaultTransport (limit.transport t) req w' with
    | (inl resp, w'') => ((Some (limit.setXRateHeaders st (Now w'') resp), None), w'')
    | (inr e, w'') => ((None, Some e), w'')
    end.
Proof.
  intros Hb. unfold limit.RoundTrip. rewrite Hb.
  destruct (limit.transport t) as [rt|]; simpl; reflexivity.
Qed.

(** C4.  When [Consume(1)] fails with an error that is not
    [ErrToManyRequests], [RoundTrip] returns no response and that very
    error; the world is exactly the one [Consume] left, whatever the
    downstream transport is, so the request was never attempted. *)
Theorem RoundTrip_propagates_store_error (t : limit.Transport) req w st e w' :
  limit.bucket t 1 w = ((st, Some e), w') →
  errors_Is e ErrToManyRequests = false →
  limit.RoundTrip Now DefaultTransport t req w = ((None, Some e), w').
Proof.
  intros Hb He. unfold limit.RoundTrip. rewrite Hb. by rewrite He.
Qed.

(** C10.  A transport whose [Transport] field is nil behaves as the one
    whose field is [http.DefaultTransport]: the bucket is consulted in
    the same way, and an accepted request goes through
    [http.DefaultTransport], whose response is stamped and whose error
    is handed on. *)
Theorem RoundTrip_nil_transport_is_default (b : limit.Bucket) req w :
  limit.RoundTrip Now DefaultTransport (limit.NewTransport b) req w
  = limit.RoundTrip Now DefaultTransport
      {| limit.transport := Some DefaultTransport; limit.bucket := b |} req w
  ∧ ∀ st w', b 1 w = ((st, None), w') →
      limit.RoundTrip Now DefaultTransport (limit.NewTransport b) req w
      = match DefaultTransport req w' with
        | (inl resp, w'') => ((Some (limit.setXRateHeaders st (Now w'') resp), None), w'')
        | (inr e, w'') => ((None, Some e), w'')
        end.
Proof.
  split; [reflexivity|].
  intros st w' Hb. by rewrite (RoundTrip_accepted _ _ _ st w').
Qed.

End TransportProperties.

Lemma RoundTrip_propagates_store_error_witness :
  limit.RoundTrip examples.clock0 examples.failing_transport
    {| limit.transport := Some examples.counting_transport;
       limit.bucket := examples.bucket_answering examples.half_used (Some examples.store_down) |}
    examples.get_root 0%nat
  = ((None, Some examples.store_down), 0%nat).
Proof.
  apply (RoundTrip_propagates_store_error examples.clock0 examples.failing_transport
           _ examples.get_root 0%nat examples.half_used examples.store_down 0%nat);
    reflexivity.
Defined.

Lemma RoundTrip_nil_transport_is_default_witness :
  limit.RoundTrip examples.clock0 examples.counting_transport
    (limit.NewTransport (examples.bucket_answering examples.half_used None))
    examples.get_root 0%nat
  = ((Some (limit.setXRateHeaders examples.half_used 0 examples.ok200), None), 1%nat).
Proof.
  apply (proj2 (RoundTrip_nil_transport_is_default examples.clock0 examples.counting_transport
                  (examples.bucket_answering examples.half_used None) examples.get_root 0%nat)
           examples.half_used 0%nat).
  reflexivity.
Defined.

(** C3.  [RoundTrip] on a bucket that answers [ErrToManyRequests] with the
    state (Capacity 2, Space 0, Reset one second ahead): the response has
    status 429, no body, a nil error, and the downstream transport, given
    or defaulted, is not called.  Its headers are two: the capacity 2 is
    nowhere in them, and the name of the limit carries the seconds since
    the reset time. *)
Theorem RoundTrip_rejection_at_exhausted (rt : option (@limit.RoundTripper nat)) req calls :
  limit.RoundTrip examples.clock0 examples.counting_transport
    {| limit.transport := rt;
       limit.bucket := examples.bucket_answering examples.exhausted (Some ErrToManyRequests) |}
    req calls
  = ((Some {| limit.Status := "Too Many Requests"; limit.StatusCode := 429;
              limit.Header := {[ "X-Rate-Limit-Limit" := ["-1"];
                                 "X-Rate-Limit-Remaining" := ["0"] ]};
              limit.Body := None |}, None), calls).
Proof.
  rewrite (RoundTrip_rejection _ _ _ _ _ examples.exhausted ErrToManyRequests calls)
    by reflexivity.
  reflexivity.
Qed.

(** C6.  For a state whose reset time lies five seconds ahead of the
    clock, the stamped reset header reads -5: the seconds from the reset
    time to now, not from now to the reset time. *)
Theorem reset_header_five_seconds_ahead (now : Time) (r : limit.Response) :
  limit.Header_Get
    (limit.Header
       (limit.setXRateHeaders
          {| limit.Capacity := 2; limit.Space := 0; limit.Reset := now + 5 * Second |} now r))
    limit.xRateLimitRest
  = Some "-5".
Proof.
  rewrite stamped_reset; cbn [limit.Reset].
  replace (now - (now + 5 * Second)) with (- (5 * Second)) by lia.
  reflexivity.
Qed.

(** C7.  The name of the reset header is the name of the capacity header;
    a synthesized response therefore has two headers, and the one read
    under the capacity name is the reset value that was written last. *)
Theorem reset_header_name_is_capacity_header_name :
  limit.xRateLimitRest = limit.xRateLimit ∧
  ∀ s now,
    size (limit.Header (limit.setXRateHeaders s now examples.rejection)) = 2%nat ∧
    limit.Header_Get (limit.Header (limit.setXRateHeaders s now examples.rejection)) limit.xRateLimit
    = Some (Itoa (limit.Seconds_int (now - limit.Reset s))).
Proof.
  split; [reflexivity|]. intros s now. split.
  - rewrite stamped_rejection_headers.
    rewrite map_size_insert_None by (by rewrite lookup_singleton_ne).
    by rewrite map_size_singleton.
  - apply (stamped_reset s now examples.rejection).
Qed.

(** ** The bucket *)

Section BucketProperties.

Import redis.

(** [drain] only ever changes the [reset] field of the bucket. *)
Lemma drain_fields b w :
  let b' := snd (fst (drain b w)) in
  key b' = key b ∧ capacity b' = capacity b ∧ space b' = space b ∧ rate b' = rate b.
Proof.
  unfold drain, Watch, bind, ret, Now.
  destruct (reply w) as [[e|] w1]; [done|].
  destruct (PTTL (key b) w1) as [[pttl err] w2].
  destruct (nonnil err && negb (is_Nil err)); [done|].
  destruct (bool_decide (pttl < 1) || is_Nil err);
    [destruct (Set_ (key b) 0 (rate b) w2) as [serr w3]; destruct (nonnil serr); done|done].
Qed.

(** [Consume], with any procedure in the place of [drain], is its read,
    compare and increment steps followed, unless the store failed, by one
    call of that procedure whose error is dropped. *)
Lemma Consume_draining_factor d b amt w :
  Consume_draining d b amt w =
  let '(v, w1) := consume_steps b amt w in
  match v with
  | StoreError e => ((state b, Some e), b, w1)
  | Full _ | Overflow _ =>
      let '((_, b'), w2) := d b w1 in
      ((state b', Some ErrToManyRequests), b', w2)
  | Accepted count =>
      let '((_, b'), w2) := d (set_space b (wrap64 (capacity b - count))) w1 in
      ((state b', None), b', w2)
  end.
Proof.
  unfold Consume_draining, consume_steps, Watch, bind, ret.
  destruct (reply w) as [[e|] w1]; [done|].
  destruct (Get (key b) w1) as [[n err] w2].
  destruct (if is_Nil err then Set_ (key b) 0 (rate b) else λ w0, (None, w0)) as [ign w3].
  destruct (nonnil err && negb (is_Nil err)) eqn:Herr.
  { destruct err as [e|]; [done|discriminate]. }
  replace (if false then err else None) with (@None error) by done.
  destruct (bool_decide (n >= capacity b)).
  - by destruct (d b w3) as [[de b'] w4].
  - destruct (IncrBy (key b) amt w3) as [[count ie] w4].
    destruct (bool_decide (count > capacity b)).
    + by destruct (d b w4) as [[de b'] w5].
    + by destruct (d _ w4) as [[de b'] w5].
Qed.

Lemma Consume_is_draining b amt : Consume b amt = Consume_draining drain b amt.
Proof. reflexivity. Qed.

Lemma Consume_factor b amt w :
  Consume b amt w =
  let '(v, w1) := consume_steps b amt w in
  match v with
  | StoreError e => ((state b, Some e), b, w1)
  | Full _ | Overflow _ =>
      let '((_, b'), w2) := drain b w1 in
      ((state b', Some ErrToManyRequests), b', w2)
  | Accepted count =>
      let '((_, b'), w2) := drain (set_space b (wrap64 (capacity b - count))) w1 in
      ((state b', None), b', w2)
  end.
Proof. rewrite Consume_is_draining. apply Consume_draining_factor. Qed.

Lemma Consume_draining_error d b amt w :
  snd (fst (fst (Consume_draining d b amt w))) = verdict_error (fst (consume_steps b amt w)).
Proof.
  rewrite Consume_draining_factor.
  destruct (consume_steps b amt w) as [[e|n|count|count] w1]; cbn [fst verdict_error].
  - done.
  - by destruct (d b w1) as [[de b'] w2].
  - by destruct (d b w1) as [[de b'] w2].
  - by destruct (d _ w1) as [[de b'] w2].
Qed.

(** The overflow verdict is reached only past the comparison of
    redis.go:56. *)
Lemma consume_steps_Overflow b amt w count w1 :
  consume_steps b amt w = (Overflow count, w1) → capacity b < count.
Proof.
  unfold consume_steps, bind, ret.
  destruct (reply w) as [[e|] w0]; [done|].
  destruct (Get (key b) w0) as [[n err] w2].
  destruct (if is_Nil err then Set_ (key b) 0 (rate b) else λ w0, (None, w0)) as [ign w3].
  destruct (if nonnil err && negb (is_Nil err) then err else None); [done|].
  destruct (bool_decide (n >= capacity b)); [done|].
  destruct (IncrBy (key b) amt w3) as [[c ie] w4].
  case_bool_decide; intros; simplify_eq. lia.
Qed.

End BucketProperties.

Section StoreCommands.

Import redis.

Variables (m : gmap string (Z * option Z)) (t : Time).

(** The store commands on a world whose fault schedule is exhausted. *)
Lemma reply_quiet : reply (mkWorld m t []) = (None, mkWorld m t []).
Proof. reflexivity. Qed.

Lemma live_unexpired k v d :
  m !! k = Some (v, Some d) → t `div` Millisecond < d →
  live (mkWorld m t []) k = Some (v, Some d).
Proof.
  intros Hk Hd. unfold live, mstime; cbn [kv clock]. rewrite Hk.
  by rewrite bool_decide_eq_false_2 by lia.
Qed.

Lemma live_expired k v d :
  m !! k = Some (v, Some d) → d <= t `div` Millisecond →
  live (mkWorld m t []) k = None.
Proof.
  intros Hk Hd. unfold live, mstime; cbn [kv clock]. rewrite Hk.
  by rewrite bool_decide_eq_true_2 by lia.
Qed.

Lemma live_missing k : m !! k = None → live (mkWorld m t []) k = None.
Proof. intros Hk. unfold live; cbn [kv]. by rewrite Hk. Qed.

Lemma Get_quiet k :
  Get k (mkWorld m t []) =
  (match live (mkWorld m t []) k with
   | Some (v, _) => (v, None)
   | None => (0, Some RedisNil)
   end, mkWorld m t []).
Proof. unfold Get, bind; cbn. by destruct (live _ k) as [[? ?]|]. Qed.

Lemma Set_quiet k v d :
  Set_ k v d (mkWorld m t []) =
  (None, mkWorld (<[k := (v, (λ ms, t `div` Millisecond + ms) <$> ttl_ms d)]> m) t []).
Proof. reflexivity. Qed.

Lemma IncrBy_quiet k amt v d :
  live (mkWorld m t []) k = Some (v, d) →
  min_int64 <= v + amt <= max_int64 →
  IncrBy k amt (mkWorld m t []) =
  ((v + amt, None), mkWorld (<[k := (v + amt, d)]> m) t []).
Proof.
  intros Hk Hr. unfold IncrBy, bind; cbn [reply faults]. rewrite Hk; cbn [default id].
  by rewrite bool_decide_eq_true_2.
Qed.

Lemma PTTL_quiet k v d :
  live (mkWorld m t []) k = Some (v, Some d) →
  PTTL k (mkWorld m t []) = ((d - t `div` Millisecond, None), mkWorld m t []).
Proof. intros Hk. unfold PTTL, bind; cbn [reply faults]. by rewrite Hk. Qed.

(** With a schedule without faults and a key that still has at least a
    millisecond to live, [drain] only refreshes the cached reset time. *)
Lemma drain_quiet b v d :
  m !! key b = Some (v, Some d) → t `div` Millisecond < d →
  drain b (mkWorld m t []) =
  ((None, set_reset b (t + wrap64 ((d - t `div` Millisecond) * Millisecond))),
   mkWorld m t []).
Proof.
  intros Hk Hd. unfold drain, Watch, bind. rewrite reply_quiet.
  rewrite (PTTL_quiet _ v d) by by apply live_unexpired.
  cbn [nonnil is_Nil andb orb]. by rewrite bool_decide_eq_false_2 by lia.
Qed.

End StoreCommands.

Section QuietCalls.

Import redis.

Variables (b : Bucket) (amt : Z) (m : gmap string (Z * option Z)) (t : Time).

(** The steps of [Consume] on a live key, no fault scheduled. *)
Lemma consume_steps_live n d :
  m !! key b = Some (n, Some d) → t `div` Millisecond < d →
  (n < capacity b → min_int64 <= n + amt <= max_int64) →
  consume_steps b amt (mkWorld m t []) =
  if bool_decide (n >= capacity b) then (Full n, mkWorld m t [])
  else (if bool_decide (n + amt > capacity b)
        then Overflow (n + amt) else Accepted (n + amt),
        mkWorld (<[key b := (n + amt, Some d)]> m) t []).
Proof.
  intros Hk Hd Hr. unfold consume_steps, bind. rewrite reply_quiet, Get_quiet.
  rewrite (live_unexpired _ _ _ n d Hk Hd); cbn [is_Nil nonnil andb ret].
  case_bool_decide; [done|].
  by rewrite (IncrBy_quiet _ _ _ _ n (Some d)) by (by apply live_unexpired || (apply Hr; lia)).
Qed.

(** On an absent or expired key [Consume] first creates the counter at 0
    with the window as its time to live, and goes on as on that key. *)
Lemma consume_steps_absent ttl :
  live (mkWorld m t []) (key b) = None → ttl_ms (rate b) = Some ttl →
  consume_steps b amt (mkWorld m t []) =
  consume_steps b amt (mkWorld (<[key b := (0, Some (t `div` Millisecond + ttl))]> m) t []).
Proof.
  intros Hk Httl. unfold consume_steps, bind. rewrite !reply_quiet, !Get_quiet, Hk.
  cbn [is_Nil error_eqb nonnil andb negb]. rewrite Set_quiet, Httl; cbn [fmap option_fmap option_map].
  destruct (live (mkWorld (<[key b:=_]> m) t []) (key b)) as [[v dl]|] eqn:Hl.
  - unfold live, mstime in Hl; cbn [kv clock] in Hl. rewrite lookup_insert_eq in Hl.
    case_bool_decide; simplify_eq. done.
  - cbn [is_Nil error_eqb nonnil andb negb]. rewrite Set_quiet, Httl; cbn [fmap option_fmap option_map].
    by rewrite insert_insert_eq.
Qed.

(** One whole call on a live key, no fault scheduled. *)
Lemma Consume_live n d :
  m !! key b = Some (n, Some d) → t `div` Millisecond < d →
  (n < capacity b → min_int64 <= n + amt <= max_int64) →
  Consume b amt (mkWorld m t []) =
  let r := t + wrap64 ((d - t `div` Millisecond) * Millisecond) in
  if bool_decide (n >= capacity b) then
    ((state (set_reset b r), Some ErrToManyRequests), set_reset b r, mkWorld m t [])
  else if bool_decide (n + amt > capacity b) then
    ((state (set_reset b r), Some ErrToManyRequests), set_reset b r,
     mkWorld (<[key b := (n + amt, Some d)]> m) t [])
  else
    let b' := set_reset (set_space b (wrap64 (capacity b - (n + amt)))) r in
    ((state b', None), b', mkWorld (<[key b := (n + amt, Some d)]> m) t []).
Proof.
  intros Hk Hd Hr. rewrite Consume_factor, (consume_steps_live n d) by done.
  destruct (bool_decide (n >= capacity b)).
  - by rewrite (drain_quiet _ _ _ n d).
  - destruct (bool_decide (n + amt > capacity b)).
    + by rewrite (drain_quiet _ _ _ (n + amt) d) by (by rewrite ?lookup_insert_eq).
    + by rewrite (drain_quiet _ _ _ (n + amt) d) by (by rewrite ?lookup_insert_eq).
Qed.

Lemma Consume_absent ttl :
  live (mkWorld m t []) (key b) = None → ttl_ms (rate b) = Some ttl →
  Consume b amt (mkWorld m t []) =
  Consume b amt (mkWorld (<[key b := (0, Some (t `div` Millisecond + ttl))]> m) t []).
Proof.
  intros Hk Httl. by rewrite !Consume_factor, (consume_steps_absent ttl).
Qed.

End QuietCalls.

Lemma ms_after (t u k : Z) : t + k * Millisecond <= u → t `div` Millisecond + k <= u `div` Millisecond.
Proof.
  intros H. unfold Millisecond in *.
  replace (t `div` 1000000 + k) with ((t + k * 1000000) `div` 1000000)
    by (rewrite Z.div_add by lia; lia).
  apply Z.div_le_mono; lia.
Qed.

Lemma ms_before (t u k : Z) : u + Millisecond <= t + k * Millisecond → u `div` Millisecond < t `div` Millisecond + k.
Proof.
  intros H. unfold Millisecond in *.
  assert (u `div` 1000000 + 1 <= t `div` 1000000 + k); [|lia].
  replace (t `div` 1000000 + k) with ((t + k * 1000000) `div` 1000000)
    by (rewrite Z.div_add by lia; lia).
  replace (u `div` 1000000 + 1) with ((u + 1 * 1000000) `div` 1000000)
    by (rewrite Z.div_add by lia; lia).
  apply Z.div_le_mono; lia.
Qed.

(** Side conditions of the per-call lemmas on concrete buckets. *)
Ltac quiet_side :=
  cbn [redis.key redis.rate redis.capacity redis.set_reset redis.set_space];
  first
    [ apply live_missing; assumption
    | by rewrite lookup_insert_eq
    | reflexivity
    | assumption
    | intros _; unfold min_int64, max_int64; lia ].

Ltac step_call :=
  cbn [redis.key redis.rate redis.capacity redis.set_reset redis.set_space
       redis.kv redis.clock redis.faults];
  rewrite ?insert_insert_eq.

(** C2.  Scenario A: a bucket built from the test configuration (capacity
    2, window one second) on a store without its key and without faults.
    Three calls of [Consume(1)] within the window give (nil, Space 1),
    (nil, Space 0), ([ErrToManyRequests], Space 0); a fourth call a full
    window after the first gives (nil, Space 1). *)
Theorem scenario_A (m : gmap string (Z * option Z)) (t0 t1 t2 t3 t4 : Time) :
  m !! "test-app-key" = None →
  t1 <= t2 <= t3 →
  t3 + Millisecond <= t1 + Second →
  t1 + Second <= t4 →
  let '((b, err), w) := redis.NewBucket examples.defaultTestCfg (redis.mkWorld m t0 []) in
  err = None ∧
  map (λ r, (limit.Space (fst r), snd r))
      (fst (redis.consume_seq b [(1, t1); (1, t2); (1, t3); (1, t4)] w))
  = [(1, None); (0, None); (0, Some ErrToManyRequests); (1, None)].
Proof.
  intros Hm H12 H3 H4. cbn. split; [done|].
  unfold redis.set_clock; cbn [redis.kv redis.clock redis.faults].
  pose proof (ms_after t1 t4 1000 ltac:(unfold Second, Millisecond in *; lia)) as Hlate.
  assert (Hin : ∀ u, t1 <= u <= t3 → u `div` Millisecond < t1 `div` Millisecond + 1000)
    by (intros u Hu; apply ms_before; unfold Second, Millisecond in *; lia).
  pose proof (Hin t1 ltac:(lia)) as Hin1.
  pose proof (Hin t2 ltac:(lia)) as Hin2.
  pose proof (Hin t3 ltac:(lia)) as Hin3.
  set (d := t1 `div` Millisecond + 1000) in *.
  (* first call: the key is created, then counted *)
  rewrite (Consume_absent _ _ _ _ 1000) by quiet_side.
  rewrite (Consume_live _ _ _ _ 0 d) by quiet_side.
  rewrite !bool_decide_eq_false_2 by (cbn; lia).
  step_call.
  (* second call *)
  rewrite (Consume_live _ _ _ _ 1 d) by quiet_side.
  rewrite !bool_decide_eq_false_2 by (cbn; lia).
  step_call.
  (* third call: the bucket is full *)
  rewrite (Consume_live _ _ _ _ 2 d) by quiet_side.
  rewrite bool_decide_eq_true_2 by (cbn; lia).
  step_call.
  (* fourth call: the key has expired *)
  rewrite (Consume_absent _ _ _ _ 1000)
    by first [ apply (live_expired _ _ _ 2 d); [by rewrite lookup_insert_eq | lia]
             | reflexivity ].
  step_call.
  rewrite (Consume_live _ _ _ _ 0 (t4 `div` Millisecond + 1000)) by first [quiet_side | lia].
  rewrite !bool_decide_eq_false_2 by (cbn; lia).
  reflexivity.
Qed.

Lemma scenario_A_witness :
  let '((b, err), w) := redis.NewBucket examples.defaultTestCfg examples.fresh in
  err = None ∧
  map (λ r, (limit.Space (fst r), snd r))
      (fst (redis.consume_seq b
              [(1, 0); (1, 1 * Millisecond); (1, 2 * Millisecond); (1, 1500 * Millisecond)] w))
  = [(1, None); (0, None); (0, Some ErrToManyRequests); (1, None)].
Proof.
  apply (scenario_A ∅ 0 0 (1 * Millisecond) (2 * Millisecond) (1500 * Millisecond));
    [reflexivity | unfold Millisecond; lia | unfold Millisecond, Second; lia
    | unfold Millisecond, Second; lia].
Defined.

(** ** The outcome of [Consume] and the drain *)

Section DrainProperties.

Import redis.

(** C9.  The error that [Consume] returns is the verdict of its read,
    compare and increment steps, in which no command of the drain takes
    part; and it is the error the call would return with any other
    procedure in the place of [drain], one that always fails or one that
    never does: what [drain] returns is dropped at each of its three
    calls. *)
Theorem Consume_outcome_ignores_drain
    (d : Bucket -> M (option error * Bucket)) (b : Bucket) (amt : Z) (w : World) :
  snd (fst (fst (Consume b amt w))) = verdict_error (fst (consume_steps b amt w)) ∧
  snd (fst (fst (Consume_draining d b amt w))) = snd (fst (fst (Consume b amt w))).
Proof.
  rewrite Consume_is_draining, !Consume_draining_error. done.
Qed.

(** A call on which the drain fails (the store refuses its WATCH) and
    [Consume] returns nil all the same. *)
Example Consume_nil_though_drain_fails :
  fst (consume_steps examples.testBucket 1 examples.fails_fifth) = Accepted 1 ∧
  fst (fst (drain (set_space examples.testBucket 1)
              (snd (consume_steps examples.testBucket 1 examples.fails_fifth))))
  = Some examples.store_down ∧
  fst (fst (Consume examples.testBucket 1 examples.fails_fifth))
  = ({| limit.Capacity := 2; limit.Space := 1; limit.Reset := zeroTime |}, None).
Proof. by vm_compute. Qed.


End DrainProperties.



(** ** Construction *)

Section Construction.

Import redis.

(** C8 (as the code has it).  [NewBucket] pings the store first and
    returns the ping's error, whatever the configuration; with the store
    alive it fails on an empty key; in every other case, non-positive
    capacity and window included, it returns a bucket holding the
    configured key, capacity and window.  The stored data is untouched
    throughout. *)
Theorem NewBucket_checks_ping_then_key (cfg : Config) (w : World) :
  (∀ e, fst (Ping w) = Some e → fst (NewBucket cfg w) = (emptyBucket, Some e)) ∧
  (fst (Ping w) = None → AppKey cfg = "" →
     fst (NewBucket cfg w) = (emptyBucket, Some (ErrNew "please provide appkey"))) ∧
  (fst (Ping w) = None → AppKey cfg ≠ "" →
     fst (NewBucket cfg w)
     = ({| key := AppKey cfg; capacity := RequestLimit cfg; space := 0;
           reset := zeroTime; rate := LimitDuration cfg |}, None)) ∧
  kv (snd (NewBucket cfg w)) = kv (w).
Proof.
  unfold NewBucket, bind, ret.
  destruct (Ping w) as [[e|] w1] eqn:Hp; cbn [fst snd nonnil].
  - repeat split; try congruence.
    unfold Ping, reply in Hp. destruct (faults w); by simplify_eq.
  - assert (kv w1 = kv w) as Hkv
      by (unfold Ping, reply in Hp; destruct (faults w); by simplify_eq).
    repeat split; try congruence.
    + intros _ Hk. by rewrite bool_decide_eq_true_2.
    + intros _ Hk. by rewrite bool_decide_eq_false_2.
    + by case_bool_decide.
Qed.

End Construction.

Lemma NewBucket_checks_ping_then_key_witness :
  fst (redis.NewBucket examples.defaultTestCfg examples.store_is_down)
  = (redis.emptyBucket, Some examples.store_down) ∧
  fst (redis.NewBucket (redis.mkConfig "" "localhost:6379" "" 0 2 Second) examples.fresh)
  = (redis.emptyBucket, Some (ErrNew "please provide appkey")) ∧
  fst (redis.NewBucket examples.zeroCfg examples.fresh)
  = ({| redis.key := "test-app-key"; redis.capacity := 0; redis.space := 0;
        redis.reset := redis.zeroTime; redis.rate := 0 |}, None).
Proof.
  split; [|split].
  - apply (proj1 (NewBucket_checks_ping_then_key examples.defaultTestCfg examples.store_is_down)).
    reflexivity.
  - apply (proj1 (proj2 (NewBucket_checks_ping_then_key
                           (redis.mkConfig "" "localhost:6379" "" 0 2 Second) examples.fresh)));
      reflexivity.
  - apply (proj1 (proj2 (proj2 (NewBucket_checks_ping_then_key examples.zeroCfg examples.fresh))));
      [reflexivity | discriminate].
Defined.

(** C8, as stated, fails: with a key, a capacity of 0 and a window of 0 the
    construction succeeds. *)
Lemma NewBucket_accepts_zero_capacity_and_window :
  ¬ (∀ (cfg : redis.Config) (w : redis.World),
        redis.AppKey cfg = "" ∨ redis.RequestLimit cfg <= 0 ∨ redis.LimitDuration cfg <= 0 →
        snd (fst (redis.NewBucket cfg w)) ≠ None).
Proof.
  intros H. apply (H examples.zeroCfg examples.fresh).
  - right; left. reflexivity.
  - reflexivity.
Qed.

(** ** Counting within one window *)

Section Counting.

Import redis.

Variables (k : string) (C : Z) (d : Z).
Hypothesis C_is_an_int : C <= max_int64.

Local Abbreviation in_window := (redis.in_window k C d).

(** From a live counter at [n]: the next [C - n] calls are accepted, all
    later ones rejected. *)
Lemma consume_all_live (calls : list (Bucket * Time)) :
  ∀ (m : gmap string (Z * option Z)) (t0 : Time) (n : Z),
    m !! k = Some (n, Some d) → 0 <= n →
    Forall in_window calls →
    map snd (fst (consume_all calls (mkWorld m t0 [])))
    = replicate (Nat.min (length calls) (Z.to_nat (C - n))) None
      ++ replicate (length calls - Z.to_nat (C - n)) (Some ErrToManyRequests).
Proof.
  induction calls as [|[b t] rest IH]; intros m t0 n Hm Hn Hall; [done|].
  apply Forall_cons in Hall as [(Hk & Hc & Ht) Hall]. cbn [fst snd] in Hk, Hc, Ht.
  cbn [consume_all]. unfold set_clock; cbn [kv clock faults].
  rewrite (Consume_live b 1 m t n d)
    by (rewrite ?Hk; first [done | unfold min_int64, max_int64 in *; lia]).
  cbv zeta. rewrite Hc, Hk. case_bool_decide as Hfull.
  - specialize (IH m t n Hm Hn Hall).
    destruct (consume_all rest _) as [rs w']. cbn [fst snd map] in *.
    rewrite IH. replace (Z.to_nat (C - n)) with 0%nat by lia.
    rewrite !Nat.min_0_r, !Nat.sub_0_r. done.
  - rewrite bool_decide_eq_false_2 by lia.
    specialize (IH (<[k := (n + 1, Some d)]> m) t (n + 1)
                  ltac:(by rewrite lookup_insert_eq) ltac:(lia) Hall).
    destruct (consume_all rest _) as [rs w']. cbn [fst snd map] in *.
    rewrite IH. replace (Z.to_nat (C - n)) with (S (Z.to_nat (C - (n + 1)))) by lia.
    cbn [length]. rewrite <- Nat.succ_min_distr. done.
Qed.

End Counting.

Lemma succeeded_count (rs : list (limit.State * option error)) (a b : nat) :
  map snd rs = replicate a None ++ replicate b (Some ErrToManyRequests) →
  length (List.filter redis.succeeded rs) = a.
Proof.
  revert a b. induction rs as [|[st [e|]] rs IH]; intros a b H.
  - by destruct a.
  - destruct a; [|done]. destruct b as [|b]; [done|].
    cbn in *. apply (IH 0%nat b). by simplify_eq.
  - destruct a; [by destruct b|]. cbn in *. f_equal. apply (IH a b). by simplify_eq.
Qed.






(** ** The package's own test *)

(** redis_test.go:24-46, [Test_Bucket_Sync]: with the test configuration,
    four requests through the transport get 200, 200, 429, 429. *)
Example Test_Bucket_Sync :
  examples.status_codes (limit.NewTransport redis.as_limit_Bucket) 4
    (examples.testBucket, examples.fresh)
  = [Some 200; Some 200; Some 429; Some 429].
Proof. by vm_compute. Qed.

(** Why the counting above asks for a positive window: a window of 0 is
    accepted by [NewBucket], the counter then has no expiry, every drain
    finds it so and sets it back to 0, and no call is ever rejected. *)
Example zero_window_never_rejects :
  map snd (fst (redis.consume_seq examples.no_window [(1, 0); (1, 0); (1, 0)] examples.fresh))
  = [None; None; None].
Proof. by vm_compute. Qed.


(** * Further properties of the code *)

(** ** limit.go: the headers and the transport *)

Lemma error_eqb_refl e : error_eqb e e = true.
Proof.
  induction e as [| |msg|msg inner IH]; cbn; try done.
  - by apply bool_decide_eq_true_2.
  - rewrite IH. by rewrite bool_decide_eq_true_2.
Qed.

Lemma errors_Is_wrap_all msgs e target :
  errors_Is e target = true → errors_Is (wrap_all msgs e) target = true.
Proof.
  intros He. induction msgs as [|msg msgs IH]; [done|].
  cbn [wrap_all foldr errors_Is]. fold (wrap_all msgs e). rewrite IH.
  apply orb_true_r.
Qed.

Lemma stamped_frame (s : limit.State) (now : Time) (r : limit.Response) :
  limit.Header (limit.setXRateHeaders s now r) !! limit.xRateLimitRemaining
  = Some [Itoa (limit.Space s)] ∧
  (∀ k, k ≠ limit.xRateLimit → k ≠ limit.xRateLimitRemaining →
        limit.Header (limit.setXRateHeaders s now r) !! k = limit.Header r !! k) ∧
  limit.Status (limit.setXRateHeaders s now r) = limit.Status r ∧
  limit.StatusCode (limit.setXRateHeaders s now r) = limit.StatusCode r ∧
  limit.Body (limit.setXRateHeaders s now r) = limit.Body r.
Proof.
  unfold limit.setXRateHeaders, limit.Header_Set, limit.xRateLimitRest;
    cbn [limit.Header limit.with_Header limit.Status limit.StatusCode limit.Body].
  repeat split.
  - rewrite lookup_insert_ne by done. by rewrite lookup_insert_eq.
  - intros k H1 H2. by rewrite !lookup_insert_ne.
Qed.



Section TransportFurther.

Context {W : Type}.
Variable Now : W -> Time.
Variable DefaultTransport : @limit.RoundTripper W.



(** X4.  An error of the bucket that wraps [ErrToManyRequests], at any
    depth, is a rejection like the bare one: the 429 response, a nil
    error, no call of the downstream transport. *)
Theorem RoundTrip_wrapped_quota_error_is_rejection (t : limit.Transport) req (w : W)
    st msgs w' :
  limit.bucket t 1 w = ((st, Some (wrap_all msgs ErrToManyRequests)), w') →
  limit.RoundTrip Now DefaultTransport t req w
  = ((Some (limit.setXRateHeaders st (Now w') examples.rejection), None), w').
Proof.
  intros Hb. apply (RoundTrip_rejection _ _ _ _ _ _ _ _ Hb).
  by apply errors_Is_wrap_all.
Qed.

End TransportFurther.


Lemma RoundTrip_wrapped_quota_error_is_rejection_witness :
  limit.RoundTrip examples.clock0 examples.counting_transport
    (limit.NewTransport
       (examples.bucket_answering examples.exhausted
          (Some (wrap_all ["limiter"; "redis bucket"] ErrToManyRequests))))
    examples.get_root 0%nat
  = ((Some (limit.setXRateHeaders examples.exhausted 0 examples.rejection), None), 0%nat).
Proof.
  apply (RoundTrip_wrapped_quota_error_is_rejection examples.clock0 examples.counting_transport
           _ examples.get_root 0%nat examples.exhausted ["limiter"; "redis bucket"] 0%nat).
  reflexivity.
Defined.

(** ** redis.go: what a call may touch *)

Section Frame.

Import redis.

Lemma reply_kv w : kv (snd (reply w)) = kv w ∧ clock (snd (reply w)) = clock w.
Proof. unfold reply. by destruct (faults w). Qed.

Lemma Get_kv k w : kv (snd (Get k w)) = kv w ∧ clock (snd (Get k w)) = clock w.
Proof.
  unfold Get, bind, ret. pose proof (reply_kv w) as Hr.
  destruct (reply w) as [[e|] w1]; [done|]. cbn [snd] in *.
  by destruct (live w1 k) as [[v dl]|].
Qed.

Lemma PTTL_kv k w : kv (snd (PTTL k w)) = kv w ∧ clock (snd (PTTL k w)) = clock w.
Proof.
  unfold PTTL, bind, ret. pose proof (reply_kv w) as Hr.
  destruct (reply w) as [[e|] w1]; [done|]. cbn [snd] in *.
  by destruct (live w1 k) as [[v [dl|]]|].
Qed.

Lemma Set_frame k v d w k' :
  k' ≠ k → kv (snd (Set_ k v d w)) !! k' = kv w !! k'.
Proof.
  intros Hk. unfold Set_, bind, ret. pose proof (reply_kv w) as [Hr _].
  destruct (reply w) as [[e|] w1]; cbn [snd kv set_kv] in *; [by rewrite Hr|].
  rewrite lookup_insert_ne by done. by rewrite Hr.
Qed.

Lemma IncrBy_frame k amt w k' :
  k' ≠ k → kv (snd (IncrBy k amt w)) !! k' = kv w !! k'.
Proof.
  intros Hk. unfold IncrBy, bind, ret. pose proof (reply_kv w) as [Hr _].
  destruct (reply w) as [[e|] w1]; cbn [snd kv set_kv] in *; [by rewrite Hr|].
  destruct (default (0, None) (live w1 k)) as [v dl].
  case_bool_decide; cbn [snd kv set_kv]; [|by rewrite Hr].
  rewrite lookup_insert_ne by done. by rewrite Hr.
Qed.

Lemma drain_frame b w k' :
  k' ≠ key b → kv (snd (drain b w)) !! k' = kv w !! k'.
Proof.
  intros Hk. unfold drain, Watch, bind, ret, Now. pose proof (reply_kv w) as [Hr _].
  destruct (reply w) as [[e|] w1]; cbn [snd] in *; [by rewrite Hr|].
  pose proof (PTTL_kv (key b) w1) as [Hp _].
  destruct (PTTL (key b) w1) as [[pttl err] w2]; cbn [snd] in *.
  destruct (nonnil err && negb (is_Nil err)); cbn [snd]; [by rewrite Hp, Hr|].
  destruct (bool_decide (pttl < 1) || is_Nil err).
  - pose proof (Set_frame (key b) 0 (rate b) w2 k' Hk) as Hs.
    destruct (Set_ (key b) 0 (rate b) w2) as [serr w3]; cbn [snd] in *.
    destruct (nonnil serr); cbn [snd]; by rewrite Hs, Hp, Hr.
  - cbn [nonnil snd]. by rewrite Hp, Hr.
Qed.

Lemma consume_steps_frame b amt w k' :
  k' ≠ key b → kv (snd (consume_steps b amt w)) !! k' = kv w !! k'.
Proof.
  intros Hk. unfold consume_steps, bind, ret. pose proof (reply_kv w) as [Hr _].
  destruct (reply w) as [[e|] w1]; cbn [snd] in *; [by rewrite Hr|].
  pose proof (Get_kv (key b) w1) as [Hg _].
  destruct (Get (key b) w1) as [[n err] w2]; cbn [snd] in *.
  assert (Hi : ∀ w3, kv w3 !! k' = kv w2 !! k' → kv w3 !! k' = kv w !! k')
    by (intros w3 ->; by rewrite Hg, Hr).
  assert (Hs : kv (snd ((if is_Nil err then Set_ (key b) 0 (rate b) else λ w0, (None, w0)) w2))
               !! k' = kv w2 !! k').
  { destruct (is_Nil err); [by apply Set_frame|done]. }
  destruct ((if is_Nil err then Set_ (key b) 0 (rate b) else λ w0, (None, w0)) w2)
    as [ign w3]; cbn [snd] in *.
  destruct (if nonnil err && negb (is_Nil err) then err else None); cbn [snd]; [by apply Hi|].
  destruct (bool_decide (n >= capacity b)); cbn [snd]; [by apply Hi|].
  pose proof (IncrBy_frame (key b) amt w3 k' Hk) as Hinc.
  destruct (IncrBy (key b) amt w3) as [[count ie] w4]; cbn [snd] in *.
  apply Hi. by rewrite Hinc.
Qed.

(** X5.  [Consume] reads and writes the counter of its own key only: the
    entry of every other key of the store is after the call what it was
    before, whatever the amount, the state of the store and its faults. *)
Theorem Consume_touches_only_its_key (b : Bucket) (amt : Z) (w : World) (k' : string) :
  k' ≠ key b → kv (snd (Consume b amt w)) !! k' = kv w !! k'.
Proof.
  intros Hk. rewrite Consume_factor.
  pose proof (consume_steps_frame b amt w k' Hk) as Hs.
  destruct (consume_steps b amt w) as [[e|n|count|count] w1]; cbn [snd] in *; [done|..].
  - pose proof (drain_frame b w1 k' Hk) as Hd.
    destruct (drain b w1) as [[de b'] w2]; cbn [snd] in *. by rewrite Hd.
  - pose proof (drain_frame b w1 k' Hk) as Hd.
    destruct (drain b w1) as [[de b'] w2]; cbn [snd] in *. by rewrite Hd.
  - pose proof (drain_frame (set_space b (wrap64 (capacity b - count))) w1 k' Hk) as Hd.
    destruct (drain _ w1) as [[de b'] w2]; cbn [snd] in *. by rewrite Hd.
Qed.

(** X6.  [Consume] never changes the key, the capacity or the window of
    the bucket object, and the state it returns carries that capacity:
    in every world, on every path. *)
Theorem Consume_keeps_configuration (b : Bucket) (amt : Z) (w : World) :
  let '((st, _), b', _) := Consume b amt w in
  key b' = key b ∧ capacity b' = capacity b ∧ rate b' = rate b ∧
  limit.Capacity st = capacity b.
Proof.
  rewrite Consume_factor.
  destruct (consume_steps b amt w) as [[e|n|count|count] w1]; [done|..].
  - pose proof (drain_fields b w1) as Hd.
    destruct (drain b w1) as [[de b'] w2]; cbn in *. destruct Hd as (-> & -> & _ & ->). done.
  - pose proof (drain_fields b w1) as Hd.
    destruct (drain b w1) as [[de b'] w2]; cbn in *. destruct Hd as (-> & -> & _ & ->). done.
  - pose proof (drain_fields (set_space b (wrap64 (capacity b - count))) w1) as Hd.
    destruct (drain _ w1) as [[de b'] w2]; cbn in *. destruct Hd as (-> & -> & _ & ->). done.
Qed.

End Frame.

Lemma Consume_touches_only_its_key_witness :
  redis.kv (snd (redis.Consume examples.testBucket 1
                   (redis.mkWorld examples.two_scopes 0 [])))
    !! "other-app" = Some (7, Some 5000).
Proof.
  rewrite (Consume_touches_only_its_key examples.testBucket 1
             (redis.mkWorld examples.two_scopes 0 []) "other-app");
    [reflexivity | discriminate].
Defined.

(** ** redis.go: failures of the store *)

Section StoreFailures.

Import redis.

Lemma wrap64_id z : min_int64 <= z <= max_int64 → wrap64 z = z.
Proof.
  unfold wrap64, min_int64, max_int64. intros Hz.
  rewrite Z.mod_small by lia. lia.
Qed.

Lemma live_set_faults w fs k : live (set_faults w fs) k = live w k.
Proof. reflexivity. Qed.

(** The store commands on a schedule with a next answer. *)
Lemma reply_next m t f fs : reply (mkWorld m t (f :: fs)) = (f, mkWorld m t fs).
Proof. reflexivity. Qed.

Lemma Get_next m t fs k :
  Get k (mkWorld m t (None :: fs)) =
  (match live (mkWorld m t fs) k with
   | Some (v, _) => (v, None)
   | None => (0, Some RedisNil)
   end, mkWorld m t fs).
Proof. unfold Get, bind. rewrite reply_next. by destruct (live _ k) as [[? ?]|]. Qed.

Lemma Get_fails m t e fs k : Get k (mkWorld m t (Some e :: fs)) = ((0, Some e), mkWorld m t fs).
Proof. reflexivity. Qed.

Lemma IncrBy_fails m t e fs k amt :
  IncrBy k amt (mkWorld m t (Some e :: fs)) = ((0, Some e), mkWorld m t fs).
Proof. reflexivity. Qed.

Lemma PTTL_fails m t e fs k : PTTL k (mkWorld m t (Some e :: fs)) = ((0, Some e), mkWorld m t fs).
Proof. reflexivity. Qed.

Lemma Set_fails m t e fs k v d :
  Set_ k v d (mkWorld m t (Some e :: fs)) = (Some e, mkWorld m t fs).
Proof. reflexivity. Qed.

Lemma PTTL_next m t fs k :
  PTTL k (mkWorld m t (None :: fs)) =
  (match live (mkWorld m t fs) k with
   | None => (-2, None)
   | Some (_, None) => (-1, None)
   | Some (_, Some deadline) => (deadline - t `div` Millisecond, None)
   end, mkWorld m t fs).
Proof.
  unfold PTTL, bind. rewrite reply_next. by destruct (live _ k) as [[? [?|]]|].
Qed.

(** X7.  When the store refuses the WATCH, or answers the GET with an
    error other than [redis.Nil], [Consume] returns that error with the
    cached state, and nothing else has happened: the bucket object and the
    stored data are as before, and neither the increment nor the drain
    was sent. *)
Theorem Consume_store_failure_changes_nothing (b : Bucket) (amt : Z) (w : World) e fs :
  faults w = Some e :: fs ∨
  (faults w = None :: Some e :: fs ∧ error_eqb e RedisNil = false) →
  Consume b amt w = ((state b, Some e), b, set_faults w fs).
Proof.
  destruct w as [m t f]; cbn [faults]. intros [->|[-> Hnil]].
  - reflexivity.
  - unfold Consume, Watch, Get, bind, ret, reply; cbn [faults set_faults kv clock].
    cbn [is_Nil nonnil]. by rewrite Hnil.
Qed.

(** X8.  A failed increment is not noticed: when the store refuses the
    INCRBY on a counter below a non-negative capacity, [Consume] returns a
    nil error and a [Space] equal to the whole capacity, and the counter
    has not moved when the drain starts. *)
Theorem Consume_failed_increment_is_accepted (b : Bucket) (amt : Z) (w : World) n dl e fs :
  faults w = None :: None :: Some e :: fs →
  live w (key b) = Some (n, dl) →
  n < capacity b → 0 <= capacity b <= max_int64 →
  consume_steps b amt w = (Accepted 0, set_faults w fs) ∧
  snd (fst (fst (Consume b amt w))) = None ∧
  limit.Space (fst (fst (fst (Consume b amt w)))) = capacity b.
Proof.
  intros Hf Hl Hn HC.
  assert (Hs : consume_steps b amt w = (Accepted 0, set_faults w fs)).
  { destruct w as [m t f]; cbn [faults] in Hf; subst f.
    assert (Hl' : live {| kv := m; clock := t; faults := Some e :: fs |} (key b) = Some (n, dl))
      by exact Hl.
    unfold consume_steps, bind. rewrite reply_next, Get_next, Hl'.
    cbn [is_Nil nonnil andb ret]. rewrite bool_decide_eq_false_2 by lia.
    rewrite IncrBy_fails. by rewrite bool_decide_eq_false_2 by lia. }
  split; [done|]. rewrite Consume_factor, Hs.
  pose proof (drain_fields (set_space b (wrap64 (capacity b - 0))) (set_faults w fs)) as Hd.
  destruct (drain _ _) as [[de b'] w2]; cbn [fst snd] in *.
  destruct Hd as (_ & _ & Hsp & _). split; [done|].
  unfold state; cbn [limit.Space]. rewrite Hsp; cbn [space set_space].
  rewrite Z.sub_0_r. apply wrap64_id. unfold min_int64, max_int64 in *. lia.
Qed.

End StoreFailures.

Lemma Consume_store_failure_changes_nothing_witness :
  redis.Consume examples.testBucket 1 examples.store_is_down
  = ((redis.state examples.testBucket, Some examples.store_down), examples.testBucket,
     redis.set_faults examples.store_is_down []).
Proof.
  apply Consume_store_failure_changes_nothing. left. reflexivity.
Defined.

Lemma Consume_failed_increment_is_accepted_witness :
  snd (fst (fst (redis.Consume examples.testBucket 1
                   (redis.mkWorld examples.two_scopes 0
                      [None; None; Some examples.store_down])))) = None ∧
  limit.Space (fst (fst (fst (redis.Consume examples.testBucket 1
                                (redis.mkWorld examples.two_scopes 0
                                   [None; None; Some examples.store_down]))))) = 2.
Proof.
  destruct (Consume_failed_increment_is_accepted examples.testBucket 1
              (redis.mkWorld examples.two_scopes 0 [None; None; Some examples.store_down])
              1 (Some 1000) examples.store_down [])
    as (_ & He & Hs); [reflexivity | reflexivity | cbn; lia | cbn; unfold max_int64; lia |].
  exact (conj He Hs).
Defined.

(** ** redis.go: one call within the window *)

Section WithinWindow.

Import redis.

Lemma reset_is_deadline t d :
  (t + (d - t `div` Millisecond) * Millisecond) `div` Millisecond = d.
Proof. unfold Millisecond. rewrite Z.div_add by lia. lia. Qed.

(** X9.  An accepted call inside the window adds exactly the amount to the
    counter and leaves its expiry where it was (consuming does not extend
    the window); the state returned has [Space] equal to the capacity less
    the new counter, and a [Reset] that is, to the millisecond, the expiry
    of the counter. *)
Theorem Consume_accepted_within_window
    (b : Bucket) (amt : Z) (m : gmap string (Z * option Z)) (t : Time) (n d : Z) :
  m !! key b = Some (n, Some d) → t `div` Millisecond < d →
  n < capacity b → 0 <= n + amt <= capacity b → capacity b <= max_int64 →
  (d - t `div` Millisecond) * Millisecond <= max_int64 →
  ∃ st b',
    Consume b amt (mkWorld m t []) =
      ((st, None), b', mkWorld (<[key b := (n + amt, Some d)]> m) t []) ∧
    st = state b' ∧
    limit.Space st = capacity b - (n + amt) ∧
    limit.Reset st `div` Millisecond = d.
Proof.
  intros Hm Ht Hn Hamt HC Hd.
  rewrite (Consume_live b amt m t n d) by (first [done | unfold min_int64, max_int64 in *; lia]).
  cbv zeta. rewrite !bool_decide_eq_false_2 by lia.
  eexists _, _. split; [reflexivity|]. split; [reflexivity|].
  unfold state; cbn [limit.Space limit.Reset space reset set_space set_reset].
  split.
  - apply wrap64_id. unfold min_int64, max_int64 in *. lia.
  - rewrite wrap64_id by (unfold min_int64, max_int64, Millisecond in *; lia).
    apply reset_is_deadline.
Qed.

(** X10.  A rejected overflow is charged all the same: the counter keeps
    the amount that took it past the capacity, the cached space is not
    touched, and the next call in the window, whatever its amount, finds
    the bucket full and is rejected without a further increment. *)
Theorem Consume_overflow_is_charged
    (b : Bucket) (amt amt' : Z) (m : gmap string (Z * option Z)) (t0 t t' : Time) (n d : Z) :
  m !! key b = Some (n, Some d) →
  t `div` Millisecond < d → t' `div` Millisecond < d →
  0 <= n < capacity b → capacity b < n + amt <= max_int64 →
  let '(rs, (b', w')) := consume_seq b [(amt, t); (amt', t')] (mkWorld m t0 []) in
  map snd rs = [Some ErrToManyRequests; Some ErrToManyRequests] ∧
  kv w' !! key b = Some (n + amt, Some d) ∧
  space b' = space b.
Proof.
  intros Hm Ht Ht' Hn Hamt. cbn [consume_seq]. unfold set_clock; cbn [kv clock faults].
  rewrite (Consume_live b amt m t n d) by (first [done | unfold min_int64 in *; lia]).
  cbv zeta. rewrite bool_decide_eq_false_2 by lia. rewrite bool_decide_eq_true_2 by lia.
  cbn [kv clock faults].
  rewrite (Consume_live _ amt' _ t' (n + amt) d)
    by (cbn [key capacity set_reset]; first [by rewrite lookup_insert_eq | done | lia]).
  cbv zeta. cbn [key capacity set_reset]. rewrite bool_decide_eq_true_2 by lia.
  cbn [map fst snd kv space set_reset]. by rewrite lookup_insert_eq.
Qed.

End WithinWindow.

Lemma Consume_accepted_within_window_witness :
  ∃ st b',
    redis.Consume examples.testBucket 1 (redis.mkWorld examples.two_scopes 0 []) =
      ((st, None), b',
       redis.mkWorld (<["test-app-key" := (2, Some 1000)]> examples.two_scopes) 0 []) ∧
    st = redis.state b' ∧
    limit.Space st = 0 ∧
    limit.Reset st `div` Millisecond = 1000.
Proof.
  apply (Consume_accepted_within_window examples.testBucket 1 examples.two_scopes 0 1 1000);
    first [reflexivity | vm_compute; intuition discriminate].
Defined.

Lemma Consume_overflow_is_charged_witness :
  let '(rs, (b', w')) :=
    redis.consume_seq examples.bucket5 [(7, 0); (1, 1 * Millisecond)]
      (redis.mkWorld examples.two_scopes 0 []) in
  map snd rs = [Some ErrToManyRequests; Some ErrToManyRequests] ∧
  redis.kv w' !! "test-app-key" = Some (8, Some 1000) ∧
  redis.space b' = 0.
Proof.
  apply (Consume_overflow_is_charged examples.bucket5 7 1 examples.two_scopes 0 0
           (1 * Millisecond) 1 1000);
    first [reflexivity | vm_compute; intuition discriminate].
Defined.

(** ** redis.go: the drain *)

Section Drain.

Import redis.

(** X11.  [drain] changes nothing of the bucket object but its cached
    reset time, and nothing of the store but the entry of the bucket's own
    key: in every world, whether it succeeds or fails. *)
Theorem drain_changes_only_reset (b : Bucket) (w : World) :
  let '((_, b'), w') := drain b w in
  key b' = key b ∧ capacity b' = capacity b ∧ space b' = space b ∧ rate b' = rate b ∧
  ∀ k', k' ≠ key b → kv w' !! k' = kv w !! k'.
Proof.
  pose proof (drain_fields b w) as Hf. pose proof (drain_frame b w) as Hk.
  destruct (drain b w) as [[de b'] w']; cbn [fst snd] in *.
  destruct Hf as (? & ? & ? & ?). done.
Qed.


(** X13.  On a live counter, a store without faults: [drain] leaves the
    store as it is and the cached space alone, sets the cached reset time
    to the expiry of the counter (to the millisecond), and a second drain
    at the same instant changes nothing more. *)
Theorem drain_on_live_counter_is_idempotent
    (b : Bucket) (m : gmap string (Z * option Z)) (t : Time) (n d : Z) :
  m !! key b = Some (n, Some d) → t `div` Millisecond < d →
  (d - t `div` Millisecond) * Millisecond <= max_int64 →
  ∃ b',
    drain b (mkWorld m t []) = ((None, b'), mkWorld m t []) ∧
    reset b' `div` Millisecond = d ∧
    space b' = space b ∧
    drain b' (mkWorld m t []) = ((None, b'), mkWorld m t []).
Proof.
  intros Hm Ht Hd. eexists. split; [by apply (drain_quiet m t b n d)|].
  cbn [reset space set_reset]. split; [|split; [done|]].
  - rewrite wrap64_id by (unfold min_int64, max_int64, Millisecond in *; lia).
    apply reset_is_deadline.
  - by rewrite (drain_quiet m t _ n d).
Qed.

(** X14.  A failing drain leaves everything as it was: when the store
    refuses the WATCH, answers the PTTL with an error other than
    [redis.Nil], or refuses the SET that would restart a missing counter,
    [drain] returns that error, the bucket object keeps its cached reset
    time, and the stored data is untouched. *)
Theorem drain_failure_changes_nothing
    (b : Bucket) (m : gmap string (Z * option Z)) (t : Time) e fs :
  drain b (mkWorld m t (Some e :: fs)) = ((Some e, b), mkWorld m t fs) ∧
  (error_eqb e RedisNil = false →
   drain b (mkWorld m t (None :: Some e :: fs)) = ((Some e, b), mkWorld m t fs)) ∧
  (live (mkWorld m t []) (key b) = None →
   drain b (mkWorld m t (None :: None :: Some e :: fs)) = ((Some e, b), mkWorld m t fs)).
Proof.
  split; [reflexivity|]. split.
  - intros Hnil. unfold drain, Watch, bind. rewrite reply_next, PTTL_fails.
    cbn [nonnil is_Nil andb]. by rewrite Hnil.
  - intros Hl. unfold drain, Watch, bind. rewrite reply_next, PTTL_next.
    assert (Hl' : live (mkWorld m t (Some e :: fs)) (key b) = None) by exact Hl.
    rewrite Hl'. cbn [nonnil is_Nil andb orb]. rewrite bool_decide_eq_true_2 by lia.
    cbn [orb]. by rewrite Set_fails.
Qed.

End Drain.

Lemma drain_changes_only_reset_witness :
  redis.space (snd (fst (redis.drain examples.testBucket
                           (redis.mkWorld examples.two_scopes 0 [])))) = 0 ∧
  redis.kv (snd (redis.drain examples.testBucket (redis.mkWorld examples.two_scopes 0 [])))
    !! "other-app" = Some (7, Some 5000).
Proof.
  pose proof (drain_changes_only_reset examples.testBucket
                (redis.mkWorld examples.two_scopes 0 [])) as H.
  destruct (redis.drain examples.testBucket (redis.mkWorld examples.two_scopes 0 []))
    as [[de b'] w'].
  destruct H as (_ & _ & Hs & _ & Hk). cbn [fst snd]. split; [exact Hs|].
  rewrite (Hk "other-app"); [reflexivity | discriminate].
Defined.


Lemma drain_on_live_counter_is_idempotent_witness :
  ∃ b',
    redis.drain examples.testBucket (redis.mkWorld examples.two_scopes 0 [])
    = ((None, b'), redis.mkWorld examples.two_scopes 0 []) ∧
    redis.reset b' `div` Millisecond = 1000 ∧
    redis.space b' = redis.space examples.testBucket ∧
    redis.drain b' (redis.mkWorld examples.two_scopes 0 [])
    = ((None, b'), redis.mkWorld examples.two_scopes 0 []).
Proof.
  apply (drain_on_live_counter_is_idempotent examples.testBucket examples.two_scopes 0 1 1000);
    first [reflexivity | vm_compute; intuition discriminate].
Defined.

Lemma drain_failure_changes_nothing_witness :
  redis.drain examples.testBucket
    (redis.mkWorld ∅ 0 [None; None; Some examples.store_down])
  = ((Some examples.store_down, examples.testBucket), redis.mkWorld ∅ 0 []) ∧
  redis.drain examples.testBucket
    (redis.mkWorld examples.two_scopes 0 [None; Some examples.store_down])
  = ((Some examples.store_down, examples.testBucket), redis.mkWorld examples.two_scopes 0 []).
Proof.
  split.
  - apply (proj2 (proj2 (drain_failure_changes_nothing examples.testBucket ∅ 0
                           examples.store_down []))).
    reflexivity.
  - apply (proj1 (proj2 (drain_failure_changes_nothing examples.testBucket
                           examples.two_scopes 0 examples.store_down []))).
    reflexivity.
Defined.

(** ** redis.go: sequences of calls *)

Section Totals.

Import redis.

Lemma accepted_total_nonneg amounts rs :
  Forall (λ a, 0 <= a) amounts → 0 <= accepted_total amounts rs.
Proof.
  intros Ha. revert rs. induction Ha as [|a amounts Ha _ IH]; intros [|r rs]; cbn; try lia.
  specialize (IH rs). destruct (succeeded r); lia.
Qed.

Variables (k : string) (C : Z) (d : Z).

(** From a live counter at [n]: the counter and what is granted from here
    on never pass the larger of [n] and the capacity. *)
Lemma consume_seq_live_total (calls : list (Z * Time)) :
  ∀ (b : Bucket) (m : gmap string (Z * option Z)) (t0 : Time) (n : Z),
    key b = k → capacity b = C →
    m !! k = Some (n, Some d) → 0 <= n →
    Forall (λ c, 0 <= c.1 ∧ C + c.1 <= max_int64 ∧ c.2 `div` Millisecond < d) calls →
    n + accepted_total (map fst calls) (fst (consume_seq b calls (mkWorld m t0 [])))
    <= Z.max n C.
Proof.
  induction calls as [|[amt t] rest IH]; intros b m t0 n Hk HC Hm Hn Hall; [cbn; lia|].
  apply Forall_cons in Hall as [(Ha & Hmax & Ht) Hall]. cbn [fst snd] in Ha, Hmax, Ht.
  cbn [consume_seq map fst]. unfold set_clock; cbn [kv clock faults].
  rewrite (Consume_live b amt m t n d)
    by (rewrite ?Hk, ?HC; first [done | unfold min_int64, max_int64 in *; lia]).
  cbv zeta. rewrite HC, Hk. case_bool_decide as Hfull; [|case_bool_decide as Hover].
  - specialize (IH (set_reset b (t + wrap64 ((d - t `div` Millisecond) * Millisecond)))
                  m t n Hk HC Hm Hn Hall).
    destruct (consume_seq _ rest _) as [rs bw]. cbn [fst accepted_total succeeded snd nonnil negb] in *.
    lia.
  - specialize (IH (set_reset b (t + wrap64 ((d - t `div` Millisecond) * Millisecond)))
                  (<[k := (n + amt, Some d)]> m) t (n + amt) Hk HC
                  ltac:(by rewrite lookup_insert_eq) ltac:(lia) Hall).
    destruct (consume_seq _ rest _) as [rs bw]. cbn [fst accepted_total succeeded snd nonnil negb] in *.
    lia.
  - specialize (IH (set_reset (set_space b (wrap64 (C - (n + amt))))
                      (t + wrap64 ((d - t `div` Millisecond) * Millisecond)))
                  (<[k := (n + amt, Some d)]> m) t (n + amt) Hk HC
                  ltac:(by rewrite lookup_insert_eq) ltac:(lia) Hall).
    destruct (consume_seq _ rest _) as [rs bw]. cbn [fst accepted_total succeeded snd nonnil negb] in *.
    lia.
Qed.

End Totals.



Section NoWindow.

Import redis.

Lemma ttl_ms_none R : R <= 0 → ttl_ms R = None.
Proof. intros HR. unfold ttl_ms. by rewrite bool_decide_eq_true_2. Qed.

Lemma live_no_deadline m t k v : m !! k = Some (v, None) → live (mkWorld m t []) k = Some (v, None).
Proof. intros Hk. unfold live; cbn [kv]. by rewrite Hk. Qed.

(** One call on a bucket whose window is not positive: the counter is
    created without expiry if need be, the amount is counted, and the
    drain, finding no expiry, sets the counter back to 0. *)
Lemma Consume_without_window b amt m t :
  rate b <= 0 →
  live (mkWorld m t []) (key b) = None ∨ m !! key b = Some (0, None) →
  0 <= amt <= capacity b → 1 <= capacity b <= max_int64 →
  Consume b amt (mkWorld m t []) =
  let b' := set_reset (set_space b (wrap64 (capacity b - amt)))
              (t + wrap64 (-1 * Millisecond)) in
  ((state b', None), b', mkWorld (<[key b := (0, None)]> m) t []).
Proof.
  intros HR Hkey Hamt HC. pose proof (ttl_ms_none _ HR) as Httl.
  assert (Hsteps : consume_steps b amt (mkWorld m t []) =
                   (Accepted amt, mkWorld (<[key b := (amt, None)]> m) t [])).
  { unfold consume_steps, bind. rewrite reply_quiet, Get_quiet.
    destruct Hkey as [Hl|Hm].
    - rewrite Hl. cbn [is_Nil error_eqb nonnil andb negb].
      rewrite Set_quiet, Httl; cbn [fmap option_fmap option_map].
      rewrite bool_decide_eq_false_2 by lia.
      rewrite (IncrBy_quiet _ _ _ _ 0 None)
        by (first [by apply live_no_deadline; rewrite lookup_insert_eq
                  | unfold min_int64, max_int64 in *; lia]).
      unfold ret. rewrite Z.add_0_l, insert_insert_eq.
      by rewrite bool_decide_eq_false_2 by lia.
    - rewrite (live_no_deadline _ _ _ _ Hm). cbn [is_Nil nonnil andb ret].
      rewrite bool_decide_eq_false_2 by lia.
      rewrite (IncrBy_quiet _ _ _ _ 0 None)
        by (first [by apply live_no_deadline | unfold min_int64, max_int64 in *; lia]).
      rewrite Z.add_0_l. by rewrite bool_decide_eq_false_2 by lia. }
  rewrite Consume_factor, Hsteps.
  unfold drain, Watch, bind. rewrite reply_quiet.
  unfold PTTL, bind. rewrite reply_quiet.
  rewrite (live_no_deadline _ _ _ amt) by (by rewrite lookup_insert_eq).
  cbn [nonnil is_Nil andb orb ret key rate set_space]. rewrite bool_decide_eq_true_2 by lia.
  cbn [orb]. rewrite Set_quiet, Httl.
  unfold ret, Now; cbn [nonnil fmap option_fmap option_map clock].
  by rewrite insert_insert_eq.
Qed.

(** X16.  A bucket whose window is zero or negative (the construction
    accepts one) limits nothing: on a store without faults, every call
    whose amount is within the capacity is accepted, however many there
    are and whenever they come, because each drain finds the counter
    without expiry and sets it back to 0. *)
Theorem nonpositive_window_never_rejects (calls : list (Z * Time)) :
  ∀ (b : Bucket) (m : gmap string (Z * option Z)) (t0 : Time),
    rate b <= 0 →
    1 <= capacity b <= max_int64 →
    m !! key b = None ∨ m !! key b = Some (0, None) →
    Forall (λ c, 0 <= c.1 <= capacity b) calls →
    map snd (fst (consume_seq b calls (mkWorld m t0 []))) = replicate (length calls) None.
Proof.
  induction calls as [|[amt t] rest IH]; intros b m t0 HR HC Hkey Hall; [done|].
  apply Forall_cons in Hall as [Hamt Hall]. cbn [fst] in Hamt.
  cbn [consume_seq]. unfold set_clock; cbn [kv clock faults].
  rewrite (Consume_without_window b amt m t HR) by
    (first [done | destruct Hkey as [Hk|Hk]; [left; by apply live_missing | by right]]).
  cbv beta iota zeta.
  specialize (IH (set_reset (set_space b (wrap64 (capacity b - amt)))
                    (t + wrap64 (-1 * Millisecond)))
                (<[key b := (0, None)]> m) t HR HC
                ltac:(right; cbn [key set_reset set_space]; by rewrite lookup_insert_eq)
                Hall).
  cbn [key set_reset set_space] in IH.
  destruct (consume_seq _ rest _) as [rs bw].
  cbn [fst snd map length replicate] in *.
  by rewrite IH.
Qed.

End NoWindow.

Lemma nonpositive_window_never_rejects_witness :
  map snd (fst (redis.consume_seq examples.no_window
                  [(1, 0); (1, 0); (1, 5 * Second); (0, 5 * Second)] examples.fresh))
  = [None; None; None; None].
Proof.
  apply (nonpositive_window_never_rejects
           [(1, 0); (1, 0); (1, 5 * Second); (0, 5 * Second)] examples.no_window ∅ 0).
  - reflexivity.
  - vm_compute. intuition discriminate.
  - left. reflexivity.
  - repeat constructor; vm_compute; discriminate.
Defined.

(** ** Construction, first call, and the transport over the redis bucket *)

Section FirstCall.

Import redis.

Lemma ttl_ms_bound R ttl : ttl_ms R = Some ttl → R <= max_int64 → 1 <= ttl ∧ ttl * Millisecond <= max_int64.
Proof.
  unfold ttl_ms, max_int64, Millisecond. intros H HR.
  case_bool_decide; [done|]. case_bool_decide; simplify_eq; [lia|].
  pose proof (Z.mul_div_le R 1000000 ltac:(lia)).
  assert (1 <= R `div` 1000000) by (apply Z.div_le_lower_bound; lia). lia.
Qed.


End FirstCall.


Section OverRedis.

Import redis.

Variables (k : string) (C : Z) (d : Z) (t : Time).
Hypothesis C_is_an_int : C <= max_int64.
Hypothesis in_time : t `div` Millisecond < d.

Lemma status_codes_live (n : nat) :
  ∀ (b : Bucket) (m : gmap string (Z * option Z)) (j : Z),
    key b = k → capacity b = C → m !! k = Some (j, Some d) → 0 <= j →
    examples.status_codes (limit.NewTransport as_limit_Bucket) n (b, mkWorld m t [])
    = replicate (Nat.min n (Z.to_nat (C - j))) (Some 200)
      ++ replicate (n - Z.to_nat (C - j)) (Some 429).
Proof.
  induction n as [|n IH]; intros b m j Hk HC Hm Hj; [done|].
  cbn [examples.status_codes]. unfold limit.RoundTrip, limit.NewTransport, as_limit_Bucket.
  cbn [limit.transport limit.bucket].
  rewrite (Consume_live b 1 m t j d)
    by (rewrite ?Hk, ?HC; first [done | unfold min_int64, max_int64 in *; lia]).
  cbv zeta. rewrite HC, Hk. case_bool_decide as Hfull.
  - cbn [errors_Is error_eqb orb fmap option_fmap option_map].
    rewrite (IH _ m j) by done.
    replace (Z.to_nat (C - j)) with 0%nat by lia.
    rewrite !Nat.min_0_r, !Nat.sub_0_r. done.
  - rewrite bool_decide_eq_false_2 by lia.
    cbn [examples.test_server fmap option_fmap option_map].
    rewrite (IH _ (<[k := (j + 1, Some d)]> m) (j + 1))
      by (first [done | by rewrite lookup_insert_eq | lia]).
    replace (Z.to_nat (C - j)) with (S (Z.to_nat (C - (j + 1)))) by lia.
    rewrite <- Nat.succ_min_distr. done.
Qed.

End OverRedis.

(** X18.  The test of the package for any capacity and any number of
    requests: through a transport over a redis bucket whose scope has no
    counter yet and whose window is positive, on a store without faults,
    the first [capacity] requests made at one instant get the server's 200
    and every further one gets 429. *)
Theorem status_codes_count_to_capacity
    (b : redis.Bucket) (m : gmap string (Z * option Z)) (t : Time) (ttl : Z) (n : nat) :
  m !! redis.key b = None →
  redis.ttl_ms (redis.rate b) = Some ttl →
  redis.rate b <= max_int64 → redis.capacity b <= max_int64 →
  examples.status_codes (limit.NewTransport redis.as_limit_Bucket) n
    (b, redis.mkWorld m t [])
  = replicate (Nat.min n (Z.to_nat (redis.capacity b))) (Some 200)
    ++ replicate (n - Z.to_nat (redis.capacity b)) (Some 429).
Proof.
  intros Hm Httl HR HC. destruct (ttl_ms_bound _ _ Httl HR) as [Hpos _].
  pose proof (status_codes_live (redis.key b) (redis.capacity b)
                (t `div` Millisecond + ttl) t HC ltac:(lia) n b
                (<[redis.key b := (0, Some (t `div` Millisecond + ttl))]> m) 0
                eq_refl eq_refl ltac:(by rewrite lookup_insert_eq) ltac:(lia)) as Hlive.
  rewrite Z.sub_0_r in Hlive. rewrite <- Hlive.
  destruct n as [|n]; [done|].
  cbn [examples.status_codes].
  unfold limit.RoundTrip, limit.NewTransport, redis.as_limit_Bucket.
  cbn [limit.transport limit.bucket].
  by rewrite (Consume_absent b 1 m t ttl) by (first [by apply live_missing | done]).
Qed.

Lemma status_codes_count_to_capacity_witness :
  examples.status_codes (limit.NewTransport redis.as_limit_Bucket) 7
    (examples.bucket5, examples.fresh)
  = replicate (Nat.min 7 (Z.to_nat 5)) (Some 200) ++ replicate (7 - Z.to_nat 5) (Some 429).
Proof.
  apply (status_codes_count_to_capacity examples.bucket5 ∅ 0 1000 7);
    first [reflexivity | vm_compute; discriminate].
Defined.
